(** * Caesar cipher of [abc.cpp]: shallow embedding and verification

    The program has one function, [encryptCaesarCipher], and a [main] that
    reads a line and an [int] from standard input and prints the transformed
    line.  The embedding keeps the types of the C++ source:

    - a [std::string] is a [string] of 8-bit [ascii] characters;
    - a [char] promoted to [int] is a [Z] (two's-complement, 8 bit);
    - an [int] is a [Z], with 32-bit wrap-around written out in [Int];
    - [%] on [int] is C++11 truncated division remainder, [Z.rem];
    - the three standard streams are strings; [main] is a function from the
      contents of standard input to what was written and the exit status. *)

From Stdlib Require Import ZArith NArith Bool Lia.
From Stdlib Require Import Strings.Ascii Strings.String.
From Stdlib Require DecimalString DecimalPos.

Local Open Scope string_scope.
Local Open Scope Z_scope.

(** ** Machine integers *)

Module Int.

Definition min_int : Z := - 2 ^ 31.
Definition max_int : Z := 2 ^ 31 - 1.

Definition in_range (z : Z) : Prop := min_int <= z <= max_int.

Definition in_rangeb (z : Z) : bool := (min_int <=? z) && (z <=? max_int).

(** Two's-complement reduction of a mathematical integer to an [int]. *)
Definition wrap (z : Z) : Z := (z + 2 ^ 31) mod 2 ^ 32 - 2 ^ 31.

Definition add (a b : Z) : Z := wrap (a + b).
Definition sub (a b : Z) : Z := wrap (a - b).

(** [a % b] of C++11: the remainder has the sign of the dividend. *)
Definition rem (a b : Z) : Z := wrap (Z.rem a b).

End Int.

(** ** Characters *)

(** The value of a [char] as an [int] ([char] is signed on the usual
    targets; for the letters, the only characters the arithmetic below is
    applied to, signed and unsigned [char] agree). *)
Definition int_of_char (c : ascii) : Z :=
  let n := Z.of_N (N_of_ascii c) in
  if n <? 128 then n else n - 256.

(** Conversion of an [int] to [char]: the low eight bits. *)
Definition char_of_int (z : Z) : ascii :=
  ascii_of_N (Z.to_N (z mod 256)).

(** [<cctype>] classification in the default "C" locale. *)
Definition isupper (x : Z) : bool := (65 <=? x) && (x <=? 90).
Definition islower (x : Z) : bool := (97 <=? x) && (x <=? 122).
Definition isalpha (x : Z) : bool := isupper x || islower x.

(** ** [encryptCaesarCipher] *)

(** [s.push_back(c)] *)
Definition push_back (s : string) (c : ascii) : string :=
  s ++ String c EmptyString.

(** The [base] of the loop body: ['a'] or ['A']. *)
Definition base_of (c : ascii) : Z :=
  if islower (int_of_char c) then int_of_char "a"%char
  else int_of_char "A"%char.

(** The index computed by the loop body before [base] is added back:
    [(c - base + key) % 26]. *)
Definition shifted_index (c : ascii) (key : Z) : Z :=
  Int.rem (Int.add (Int.sub (int_of_char c) (base_of c)) key) 26.

(** What one iteration of the loop pushes for the character [c]. *)
Definition encryptChar (c : ascii) (key : Z) : ascii :=
  if isalpha (int_of_char c) then
    let base := base_of c in
    let shiftedChar := char_of_int (Int.add (shifted_index c key) base) in
    shiftedChar
  else c.

(** The range-for loop, with the string under construction as state. *)
Fixpoint encrypt_loop (message : string) (key : Z) (encryptedMessage : string)
  : string :=
  match message with
  | EmptyString => encryptedMessage
  | String c rest =>
      encrypt_loop rest key (push_back encryptedMessage (encryptChar c key))
  end.

Definition encryptCaesarCipher (message : string) (key : Z) : string :=
  let encryptedMessage := "" in
  encrypt_loop message key encryptedMessage.

(** ** Standard input and [main] *)

(** An input stream: the characters not yet read, and whether the stream
    is still [good()] (neither [eofbit] nor [failbit] set). *)
Record istream : Type := mkIstream { buffer : string; good : bool }.

Definition newline : ascii := "010"%char.
Definition endl : string := String newline EmptyString.

(** [isspace] in the "C" locale: space and the control characters 9 to 13. *)
Definition isspace (c : ascii) : bool :=
  let n := Z.of_N (N_of_ascii c) in
  (n =? 32) || ((9 <=? n) && (n <=? 13)).

Definition isdigit (c : ascii) : bool :=
  let n := Z.of_N (N_of_ascii c) in (48 <=? n) && (n <=? 57).

Definition digit_value (c : ascii) : Z := Z.of_N (N_of_ascii c) - 48.

(** Characters up to the first newline, and what follows it; [None] for
    the rest when the input ends before a newline is seen. *)
Fixpoint split_line (s : string) : string * option string :=
  match s with
  | EmptyString => (EmptyString, None)
  | String c rest =>
      if Ascii.eqb c newline then (EmptyString, Some rest)
      else let (line, tail) := split_line rest in (String c line, tail)
  end.

(** [getline(cin, message)]: the delimiter is extracted and dropped; end
    of input sets [eofbit], and [failbit] too when nothing was extracted. *)
Definition getline (cin : istream) : string * istream :=
  if good cin then
    match split_line (buffer cin) with
    | (line, Some rest) => (line, mkIstream rest true)
    | (line, None) => (line, mkIstream EmptyString false)
    end
  else (EmptyString, cin).

Fixpoint skip_ws (s : string) : string :=
  match s with
  | String c rest => if isspace c then skip_ws rest else s
  | EmptyString => EmptyString
  end.

(** The leading decimal digits of [s], accumulated left to right. *)
Fixpoint take_digits (s : string) (count : nat) (acc : Z) : nat * Z * string :=
  match s with
  | String c rest =>
      if isdigit c then take_digits rest (S count) (10 * acc + digit_value c)
      else (count, acc, s)
  | EmptyString => (count, acc, s)
  end.

(** Result of [num_get] for an [int]: what is stored, and whether
    [failbit] is raised. *)
Inductive scan : Type :=
| NoNumber               (* no digits: 0 is stored, failbit *)
| OutOfRange (stored : Z) (* the nearest bound is stored, failbit *)
| Number (v : Z).

Definition scan_int (s : string) : scan * string :=
  let '(negative, s1) :=
    match s with
    | String "-"%char rest => (true, rest)
    | String "+"%char rest => (false, rest)
    | _ => (false, s)
    end in
  let '(count, magnitude, rest) := take_digits s1 0%nat 0 in
  match count with
  | O => (NoNumber, rest)
  | S _ =>
      let v := if negative then - magnitude else magnitude in
      if v <? Int.min_int then (OutOfRange Int.min_int, rest)
      else if Int.max_int <? v then (OutOfRange Int.max_int, rest)
      else (Number v, rest)
  end.

Definition stored_value (r : scan) : Z :=
  match r with
  | NoNumber => 0
  | OutOfRange b => b
  | Number v => v
  end.

Definition scan_failed (r : scan) : bool :=
  match r with Number _ => false | _ => true end.

(** [cin >> key].  When the stream is not good, or only white space is
    left, the sentry fails and [key] keeps the value it had.  Afterwards
    the stream is good only if the scan succeeded and stopped at a
    character: a scan that runs to the end of the input sets [eofbit]. *)
Definition extract_int (cin : istream) (key : Z) : Z * istream :=
  if good cin then
    match skip_ws (buffer cin) with
    | EmptyString => (key, mkIstream EmptyString false)
    | token =>
        let (r, rest) := scan_int token in
        let at_end := match rest with EmptyString => true | _ => false end in
        (stored_value r, mkIstream rest (negb (scan_failed r) && negb at_end))
    end
  else (key, cin).

(** What a run of the program leaves behind. *)
Record outcome : Type := mkOutcome { out : string; err : string; status : Z }.

(** [main].  [key0] is the indeterminate value of the uninitialised local
    [key]; it is only seen when no extraction is attempted. *)
Definition main (key0 : Z) (stdin : string) : outcome :=
  let cin := mkIstream stdin true in
  let cout := "" in
  let cout := (cout ++ "Enter the message you want to encrypt: ")%string in
  let (message, cin) := getline cin in
  let cout := (cout ++ "Enter the key value: ")%string in
  let (key, cin) := extract_int cin key0 in
  let encryptedMessage := encryptCaesarCipher message key in
  let cout := (cout ++ "Encrypted message: " ++ encryptedMessage ++ endl)%string in
  mkOutcome cout "" 0.

(** The key token of a run: what [cin >> key] starts scanning at, when the
    first line ended with a newline and something other than white space
    follows it. *)
Definition key_token (stdin : string) : option string :=
  match split_line stdin with
  | (_, Some rest) =>
      match skip_ws rest with
      | EmptyString => None
      | token => Some token
      end
  | (_, None) => None
  end.

Definition message_of (stdin : string) : string := fst (split_line stdin).

(** ** The cipher as the specification words it *)

(** The normalized modulo of the specification, [((x % 26) + 26) % 26]. *)
Definition normalized_mod (x : Z) : Z := Z.rem (Z.rem x 26 + 26) 26.

(** [((c - base + key) mod 26 + 26) mod 26 + base] over the mathematical
    integers, for a letter; any other character is emitted unchanged. *)
Definition spec_shift (c : ascii) (key : Z) : ascii :=
  if isalpha (int_of_char c) then
    char_of_int (normalized_mod (int_of_char c - base_of c + key) + base_of c)
  else c.

Fixpoint map_string (f : ascii -> ascii) (s : string) : string :=
  match s with
  | EmptyString => EmptyString
  | String c rest => String (f c) (map_string f rest)
  end.

(** The elementwise transformation of the specification. *)
Definition transform_spec (message : string) (key : Z) : string :=
  map_string (fun c => spec_shift c key) message.

Fixpoint all_chars (p : ascii -> bool) (s : string) : bool :=
  match s with
  | EmptyString => true
  | String c rest => p c && all_chars p rest
  end.

(** [c - base + key] is representable as an [int] (vacuous when [c] is
    not a letter, for then the sum is never computed). *)
Definition sum_fits (key : Z) (c : ascii) : bool :=
  negb (isalpha (int_of_char c))
  || Int.in_rangeb (int_of_char c - base_of c + key).

Definition same_case (c d : ascii) : bool :=
  (isupper (int_of_char c) && isupper (int_of_char d))
  || (islower (int_of_char c) && islower (int_of_char d)).

(** The behaviour the error policy of the specification asks of a run: a
    diagnostic on standard error, a non-zero status, no result line. *)
Definition reports_input_error (o : outcome) : Prop :=
  err o <> "" /\ status o <> 0
  /\ index 0 "Encrypted message" (out o) = None.

Definition prompts : string :=
  "Enter the message you want to encrypt: Enter the key value: ".

(** A run whose second line is the word [abc] where the key is expected. *)
Definition stdin_bad_key : string :=
  ("Hello" ++ endl ++ "abc" ++ endl)%string.

(** The integer a token starts with, over the mathematical integers: an
    optional sign and the digits after it; [None] when no digit is
    there. *)
Definition leading_number (token : string) : option Z :=
  let '(negative, digits) :=
    match token with
    | String "-"%char rest => (true, rest)
    | String "+"%char rest => (false, rest)
    | _ => (false, token)
    end in
  let '(count, magnitude, _) := take_digits digits 0%nat 0 in
  match count with
  | O => None
  | S _ => Some (if negative then - magnitude else magnitude)
  end.

(** Runs whose key line holds a numeral above [INT_MAX], below
    [INT_MIN]. *)
Definition stdin_big_key : string :=
  ("Hello" ++ endl ++ "99999999999" ++ endl)%string.

Definition stdin_small_key : string :=
  ("Hello" ++ endl ++ "-99999999999" ++ endl)%string.

(** ** Inputs of a run *)

(** The decimal numeral of [k], as typed on the key line: digits with no
    leading zero, a minus sign in front when [k] is negative. *)
Definition decimal (k : Z) : string :=
  DecimalString.NilEmpty.string_of_int (Z.to_int k).

Definition no_newline (s : string) : bool :=
  all_chars (fun c => negb (Ascii.eqb c newline)) s.

Definition starts_with_digit (s : string) : bool :=
  match s with
  | String c _ => isdigit c
  | EmptyString => false
  end.

(** What [main] leaves behind when it has read [message] and handed [key]
    to the cipher. *)
Definition run_result (message : string) (key : Z) : outcome :=
  mkOutcome
    (prompts ++ "Encrypted message: "
       ++ encryptCaesarCipher message key ++ endl)%string
    "" 0.

(** * Properties *)

(** ** Strings *)

Lemma append_nil_r (s : string) : (s ++ "")%string = s.
Proof. induction s as [|c s IH]; simpl; [reflexivity | now rewrite IH]. Qed.

Lemma append_assoc (s t u : string) :
  ((s ++ t) ++ u)%string = (s ++ (t ++ u))%string.
Proof. induction s as [|c s IH]; simpl; [reflexivity | now rewrite IH]. Qed.

Lemma length_map_string f s : String.length (map_string f s) = String.length s.
Proof. induction s as [|c s IH]; simpl; [reflexivity | now rewrite IH]. Qed.

Lemma map_string_app f s t :
  map_string f (s ++ t) = (map_string f s ++ map_string f t)%string.
Proof. induction s as [|c s IH]; simpl; [reflexivity | now rewrite IH]. Qed.

Lemma get_map_string f s : forall i,
  get i (map_string f s) = option_map f (get i s).
Proof.
  induction s as [|c s IH]; intros i; simpl.
  - reflexivity.
  - destruct i as [|i]; [reflexivity | apply IH].
Qed.

Lemma map_string_ext f g s :
  (forall i c, get i s = Some c -> f c = g c) -> map_string f s = map_string g s.
Proof.
  induction s as [|c s IH]; intros H; simpl.
  - reflexivity.
  - rewrite (H 0%nat c eq_refl). f_equal.
    apply IH. intros i d Hd. apply (H (S i) d). exact Hd.
Qed.

Lemma all_chars_get p s :
  all_chars p s = true -> forall i c, get i s = Some c -> p c = true.
Proof.
  induction s as [|d s IH]; simpl; intros H i c Hc.
  - discriminate.
  - apply andb_true_iff in H. destruct H as [Hd Hs].
    destruct i as [|i].
    + now inversion Hc; subst.
    + now apply (IH Hs i).
Qed.

(** ** The loop is an elementwise map *)

Lemma encrypt_loop_map message key : forall acc,
  encrypt_loop message key acc
  = (acc ++ map_string (fun c => encryptChar c key) message)%string.
Proof.
  induction message as [|c rest IH]; intros acc; simpl.
  - now rewrite append_nil_r.
  - rewrite IH. unfold push_back. now rewrite append_assoc.
Qed.

Lemma encryptCaesarCipher_map message key :
  encryptCaesarCipher message key
  = map_string (fun c => encryptChar c key) message.
Proof. unfold encryptCaesarCipher. now rewrite encrypt_loop_map. Qed.

(** ** Machine arithmetic *)

Lemma wrap_in_range z : Int.in_range z -> Int.wrap z = z.
Proof.
  unfold Int.in_range, Int.min_int, Int.max_int, Int.wrap. intros H.
  rewrite Z.mod_small; lia.
Qed.

Lemma in_rangeb_spec z : Int.in_rangeb z = true <-> Int.in_range z.
Proof.
  unfold Int.in_rangeb, Int.in_range.
  rewrite andb_true_iff, !Z.leb_le. tauto.
Qed.

Lemma rem_26_bound x : -26 < Z.rem x 26 < 26.
Proof.
  pose proof (Z.rem_bound_abs x 26). lia.
Qed.

Lemma rem_26_nonneg x : 0 <= x -> Int.rem x 26 = x mod 26.
Proof.
  intros Hx. unfold Int.rem.
  rewrite Z.rem_mod_nonneg by lia.
  apply wrap_in_range. unfold Int.in_range, Int.min_int, Int.max_int.
  pose proof (Z.mod_pos_bound x 26). lia.
Qed.

(** The double remainder of the specification is the mathematical
    modulo, whatever the sign of its argument. *)
Lemma normalized_mod_eq x : normalized_mod x = x mod 26.
Proof.
  unfold normalized_mod.
  pose proof (rem_26_bound x) as Hb.
  rewrite Z.rem_mod_nonneg by lia.
  rewrite (Z.quot_rem' x 26) at 2.
  rewrite (Z.add_comm (26 * _)), Z.mul_comm, Z_mod_plus_full.
  rewrite <- (Z_mod_plus_full (Z.rem x 26) 1 26). reflexivity.
Qed.

Lemma normalized_mod_bound x : 0 <= normalized_mod x < 26.
Proof. rewrite normalized_mod_eq. apply Z.mod_pos_bound. lia. Qed.

(** ** Characters *)

Lemma N_of_ascii_bound c : (N_of_ascii c < 256)%N.
Proof. destruct c as [[] [] [] [] [] [] [] []]; vm_compute; reflexivity. Qed.

Lemma char_of_int_of_char c : char_of_int (int_of_char c) = c.
Proof.
  unfold char_of_int, int_of_char.
  pose proof (N_of_ascii_bound c) as Hb.
  set (n := Z.of_N (N_of_ascii c)) in *.
  assert (Hn : 0 <= n < 256) by (subst n; lia).
  replace ((if n <? 128 then n else n - 256) mod 256) with n.
  - subst n. rewrite N2Z.id. apply ascii_N_embedding.
  - destruct (n <? 128).
    + now rewrite Z.mod_small.
    + rewrite <- (Z_mod_plus_full (n - 256) 1 256).
      rewrite Z.mod_small; lia.
Qed.

Lemma int_of_char_of_int z : 0 <= z < 128 -> int_of_char (char_of_int z) = z.
Proof.
  intros Hz. unfold char_of_int, int_of_char.
  rewrite Z.mod_small by lia.
  rewrite N_ascii_embedding by lia.
  rewrite Z2N.id by lia.
  destruct (Z.ltb_spec z 128); lia.
Qed.

(** A letter is in one of the two ranges, and [base_of] is the start of
    that range. *)
Lemma letter_cases c :
  isalpha (int_of_char c) = true ->
  (islower (int_of_char c) = true /\ isupper (int_of_char c) = false
   /\ base_of c = 97 /\ 97 <= int_of_char c <= 122)
  \/ (islower (int_of_char c) = false /\ isupper (int_of_char c) = true
      /\ base_of c = 65 /\ 65 <= int_of_char c <= 90).
Proof.
  unfold isalpha, base_of, isupper, islower.
  change (int_of_char "a") with 97. change (int_of_char "A") with 65.
  set (v := int_of_char c).
  destruct (Z.leb_spec 97 v), (Z.leb_spec v 122), (Z.leb_spec 65 v),
    (Z.leb_spec v 90); simpl; intros Halpha; try discriminate; try lia;
    (left; repeat split; lia) || (right; repeat split; lia).
Qed.

Lemma letter_offset c :
  isalpha (int_of_char c) = true ->
  0 <= int_of_char c - base_of c < 26
  /\ Int.sub (int_of_char c) (base_of c) = int_of_char c - base_of c.
Proof.
  intros H. destruct (letter_cases c H) as [(_ & _ & Hb & Hr)|(_ & _ & Hb & Hr)];
    rewrite Hb; (split; [lia|]); unfold Int.sub; apply wrap_in_range;
    unfold Int.in_range, Int.min_int, Int.max_int; lia.
Qed.

(** ** Nonnegative keys *)

(** With a nonnegative key and no overflow the index the loop computes is
    the mathematical modulo. *)
Lemma shifted_index_nonneg c key :
  isalpha (int_of_char c) = true ->
  0 <= key -> int_of_char c - base_of c + key <= Int.max_int ->
  shifted_index c key = (int_of_char c - base_of c + key) mod 26.
Proof.
  intros Hc Hk Hfit. destruct (letter_offset c Hc) as [Hoff Hsub].
  unfold shifted_index. rewrite Hsub.
  unfold Int.add at 1. rewrite wrap_in_range.
  - apply rem_26_nonneg. lia.
  - unfold Int.in_range, Int.min_int in *. lia.
Qed.

Lemma shifted_sum_nonneg c key :
  isalpha (int_of_char c) = true ->
  0 <= key -> int_of_char c - base_of c + key <= Int.max_int ->
  Int.add (shifted_index c key) (base_of c)
  = normalized_mod (int_of_char c - base_of c + key) + base_of c.
Proof.
  intros Hc Hk Hfit. rewrite shifted_index_nonneg by assumption.
  rewrite normalized_mod_eq.
  pose proof (Z.mod_pos_bound (int_of_char c - base_of c + key) 26).
  unfold Int.add. apply wrap_in_range.
  unfold Int.in_range, Int.min_int, Int.max_int.
  destruct (letter_cases c Hc) as [(_ & _ & Hb & _)|(_ & _ & Hb & _)];
    rewrite Hb in *; lia.
Qed.

Lemma encryptChar_nonneg c key :
  0 <= key -> sum_fits key c = true -> encryptChar c key = spec_shift c key.
Proof.
  intros Hk Hfit. unfold encryptChar, spec_shift, sum_fits in *.
  destruct (isalpha (int_of_char c)) eqn:Hc; [|reflexivity].
  simpl in Hfit. apply in_rangeb_spec in Hfit. destruct Hfit as [_ Hfit].
  now rewrite shifted_sum_nonneg.
Qed.

Lemma sum_fits_zero c : sum_fits 0 c = true.
Proof.
  unfold sum_fits. destruct (isalpha (int_of_char c)) eqn:Hc; [|reflexivity].
  simpl. apply in_rangeb_spec. destruct (letter_offset c Hc) as [Hoff _].
  unfold Int.in_range, Int.min_int, Int.max_int. lia.
Qed.

(** Key 0 is the identity on every character. *)
Lemma encryptChar_zero c : encryptChar c 0 = c.
Proof.
  rewrite encryptChar_nonneg by (try lia; apply sum_fits_zero).
  unfold spec_shift. destruct (isalpha (int_of_char c)) eqn:Hc; [|reflexivity].
  destruct (letter_offset c Hc) as [Hoff _].
  rewrite normalized_mod_eq, Z.add_0_r, Z.mod_small by lia.
  replace (int_of_char c - base_of c + base_of c) with (int_of_char c) by lia.
  apply char_of_int_of_char.
Qed.

Lemma map_string_id f s : (forall c, f c = c) -> map_string f s = s.
Proof.
  intros Hf. induction s as [|c s IH]; simpl; [reflexivity|].
  now rewrite Hf, IH.
Qed.

Lemma encrypt_key_zero message : encryptCaesarCipher message 0 = message.
Proof.
  rewrite encryptCaesarCipher_map. apply map_string_id, encryptChar_zero.
Qed.

(** With a nonnegative key and no overflow, a letter is sent to a letter
    of its own case. *)
Lemma encryptChar_nonneg_same_case c key :
  isalpha (int_of_char c) = true ->
  0 <= key -> sum_fits key c = true ->
  same_case c (encryptChar c key) = true.
Proof.
  intros Hc Hk Hfit. rewrite encryptChar_nonneg by assumption.
  unfold spec_shift, same_case. rewrite Hc.
  pose proof (normalized_mod_bound (int_of_char c - base_of c + key)) as Hb.
  set (r := normalized_mod _) in *.
  destruct (letter_cases c Hc) as [(Hl & Hu & Hbase & Hr)|(Hl & Hu & Hbase & Hr)];
    rewrite Hl, Hu, Hbase, int_of_char_of_int by lia; simpl;
    rewrite ?orb_false_r; unfold islower, isupper;
    rewrite andb_true_iff, !Z.leb_le; lia.
Qed.

(** Below zero the remainder of [%] keeps the sign of the sum: the pushed
    character lies before [base], outside the alphabet. *)
Lemma shifted_index_negative c key :
  isalpha (int_of_char c) = true ->
  - 2 ^ 31 <= key -> int_of_char c - base_of c + key < 0 ->
  shifted_index c key = Z.rem (int_of_char c - base_of c + key) 26
  /\ shifted_index c key <= 0.
Proof.
  intros Hc Hk Hneg. destruct (letter_offset c Hc) as [Hoff Hsub].
  unfold shifted_index. rewrite Hsub.
  unfold Int.add. rewrite (wrap_in_range (_ + key))
    by (unfold Int.in_range, Int.min_int, Int.max_int; lia).
  pose proof (rem_26_bound (int_of_char c - base_of c + key)) as Hb.
  assert (Hle : Z.rem (int_of_char c - base_of c + key) 26 <= 0)
    by (apply Z.rem_nonpos; lia).
  unfold Int.rem. rewrite wrap_in_range
    by (unfold Int.in_range, Int.min_int, Int.max_int; lia).
  split; [reflexivity | exact Hle].
Qed.

(** So a letter whose sum is negative and not a multiple of 26 is never
    sent to a letter of its own case. *)
Lemma encryptChar_negative_not_same_case c key :
  isalpha (int_of_char c) = true ->
  - 2 ^ 31 <= key -> int_of_char c - base_of c + key < 0 ->
  Z.rem (int_of_char c - base_of c + key) 26 <> 0 ->
  same_case c (encryptChar c key) = false.
Proof.
  intros Hc Hk Hneg Hrem.
  destruct (shifted_index_negative c key Hc Hk Hneg) as [Hidx Hle].
  pose proof (rem_26_bound (int_of_char c - base_of c + key)) as Hb.
  unfold encryptChar, same_case. rewrite Hc. cbv zeta.
  rewrite Hidx in *. set (r := Z.rem _ 26) in *.
  destruct (letter_cases c Hc) as [(Hl & Hu & Hbase & _)|(Hl & Hu & Hbase & _)];
    rewrite Hl, Hu, Hbase; unfold Int.add;
    rewrite wrap_in_range
      by (unfold Int.in_range, Int.min_int, Int.max_int; lia);
    rewrite int_of_char_of_int by lia; simpl; rewrite ?orb_false_r;
    unfold islower, isupper; apply andb_false_iff; left;
    apply Z.leb_gt; lia.
Qed.

(** Keys that differ by 26 agree as long as both are nonnegative and the
    larger one does not overflow. *)
Lemma encrypt_periodic_nonneg message key :
  0 <= key -> all_chars (sum_fits (key + 26)) message = true ->
  encryptCaesarCipher message key = encryptCaesarCipher message (key + 26).
Proof.
  intros Hk Hfit. rewrite !encryptCaesarCipher_map.
  apply map_string_ext. intros i c Hi.
  pose proof (all_chars_get _ _ Hfit i c Hi) as Hc.
  assert (Hc0 : sum_fits key c = true).
  { unfold sum_fits in *. destruct (isalpha (int_of_char c)) eqn:Ha;
      [|reflexivity]. simpl in *. apply in_rangeb_spec in Hc.
    apply in_rangeb_spec. destruct (letter_offset c Ha) as [Hoff _].
    unfold Int.in_range, Int.min_int, Int.max_int in *. lia. }
  rewrite !encryptChar_nonneg by (assumption || lia).
  unfold spec_shift. destruct (isalpha (int_of_char c)); [|reflexivity].
  rewrite !normalized_mod_eq.
  replace (int_of_char c - base_of c + (key + 26))
    with (int_of_char c - base_of c + key + 1 * 26) by lia.
  now rewrite Z_mod_plus_full.
Qed.

(** * The claims *)

(** C1, at the input where the code departs from it: for the message
    [a] and the key [-1] the loop computes the index [-1] and pushes the
    character before [a], where the normalized modulo of the
    specification gives index 25 and the letter [z]. *)
Theorem negative_key_leaves_alphabet :
  shifted_index "a" (-1) = -1
  /\ normalized_mod (int_of_char "a" - base_of "a" + -1) = 25
  /\ encryptCaesarCipher "a" (-1) = "`"
  /\ transform_spec "a" (-1) = "z".
Proof. repeat split; vm_compute; reflexivity. Qed.

(** C2, at the input where the code departs from it: the lowercase
    letter [a] at position 0 is sent by the key [-1] to a character that
    is no letter at all. *)
Theorem negative_key_output_not_letter :
  get 0 "a" = Some "a"%char
  /\ islower (int_of_char "a") = true
  /\ get 0 (encryptCaesarCipher "a" (-1)) = Some "`"%char
  /\ isalpha (int_of_char "`") = false.
Proof. repeat split; vm_compute; reflexivity. Qed.

(** C3, at the input where the code departs from it: encrypting [z] with
    key 1 gives [a], and encrypting that with key -1 does not give [z]
    back. *)
Theorem round_trip_fails_at_z :
  encryptCaesarCipher "z" 1 = "a"
  /\ encryptCaesarCipher (encryptCaesarCipher "z" 1) (-1) = "`"
  /\ encryptCaesarCipher (encryptCaesarCipher "z" 1) (-1) <> "z".
Proof. repeat split; try (vm_compute; reflexivity). vm_compute. discriminate. Qed.

(** C4 as stated does not hold: the key -1 does not send [Shift] to
    [Rghzs]. *)
Lemma shift_minus_one_is_not_Rghzs :
  encryptCaesarCipher "Shift" (-1) <> "Rghzs".
Proof. vm_compute. discriminate. Qed.

(** C4, amended: the key -1 sends [Shift] to [Rghes], each letter moved
    one place back, none of them across the start of the alphabet. *)
Theorem shift_minus_one :
  encryptCaesarCipher "Shift" (-1) = "Rghes".
Proof. vm_compute. reflexivity. Qed.

(** C6: the output has the length of the message, for every message and
    every key, and the empty message gives the empty string. *)
Theorem encrypt_preserves_length :
  forall (message : string) (key : Z),
    String.length (encryptCaesarCipher message key) = String.length message
    /\ encryptCaesarCipher "" key = "".
Proof.
  intros message key. split.
  - rewrite encryptCaesarCipher_map. apply length_map_string.
  - reflexivity.
Qed.

(** C7, at the input where the code departs from it: the keys -1 and
    -1 + 26 = 25 send [a] to different strings. *)
Theorem period_fails_across_zero :
  encryptCaesarCipher "a" (-1) = "`"
  /\ encryptCaesarCipher "a" (-1 + 26) = "z"
  /\ encryptCaesarCipher "a" (-1) <> encryptCaesarCipher "a" (-1 + 26).
Proof. repeat split; try (vm_compute; reflexivity). vm_compute. discriminate. Qed.

(** C8: a character that is not an ASCII letter is found unchanged at the
    same position of the output, whatever the key. *)
Theorem non_letters_pass_through :
  forall (message : string) (key : Z) (i : nat) (c : ascii),
    get i message = Some c ->
    isalpha (int_of_char c) = false ->
    get i (encryptCaesarCipher message key) = Some c.
Proof.
  intros message key i c Hi Hc.
  rewrite encryptCaesarCipher_map, get_map_string, Hi. simpl.
  unfold encryptChar. now rewrite Hc.
Qed.

Lemma non_letters_pass_through_witness :
  get 5 "Hello, World!" = Some ","%char
  /\ isalpha (int_of_char ",") = false
  /\ get 5 (encryptCaesarCipher "Hello, World!" (-7)) = Some ","%char.
Proof.
  split; [reflexivity|]. split; [reflexivity|].
  apply (non_letters_pass_through "Hello, World!" (-7) 5 ","%char);
    reflexivity.
Defined.

(** C9: for a nonnegative key, when [c - base + key] fits an [int] at
    every letter of the message, the sum [(c - base + key) % 26 + base]
    the code computes is the normalized-modulo sum of the specification
    at every letter, and the output is the transformation the
    specification describes. *)
Theorem nonneg_key_meets_spec :
  forall (message : string) (key : Z),
    0 <= key ->
    all_chars (sum_fits key) message = true ->
    (forall i c,
        get i message = Some c -> isalpha (int_of_char c) = true ->
        Int.add (shifted_index c key) (base_of c)
        = normalized_mod (int_of_char c - base_of c + key) + base_of c
        /\ 0 <= shifted_index c key < 26)
    /\ encryptCaesarCipher message key = transform_spec message key.
Proof.
  intros message key Hk Hfit. split.
  - intros i c Hi Hc.
    pose proof (all_chars_get _ _ Hfit i c Hi) as Hs.
    unfold sum_fits in Hs. rewrite Hc in Hs. simpl in Hs.
    apply in_rangeb_spec in Hs. destruct Hs as [_ Hs]. split.
    + now apply shifted_sum_nonneg.
    + rewrite shifted_index_nonneg by assumption.
      apply Z.mod_pos_bound. lia.
  - rewrite encryptCaesarCipher_map. unfold transform_spec.
    apply map_string_ext. intros i c Hi.
    apply encryptChar_nonneg; [assumption|].
    exact (all_chars_get _ _ Hfit i c Hi).
Qed.

Lemma nonneg_key_meets_spec_witness :
  0 <= 29
  /\ all_chars (sum_fits 29) "Hello, World!" = true
  /\ encryptCaesarCipher "Hello, World!" 29 = transform_spec "Hello, World!" 29.
Proof.
  split; [lia|]. split; [reflexivity|].
  apply (nonneg_key_meets_spec "Hello, World!" 29); [lia | reflexivity].
Defined.

(** C10: the transformation of a concatenation is the concatenation of
    the transformations. *)
Theorem encrypt_app :
  forall (m1 m2 : string) (key : Z),
    encryptCaesarCipher (m1 ++ m2) key
    = (encryptCaesarCipher m1 key ++ encryptCaesarCipher m2 key)%string.
Proof.
  intros m1 m2 key. rewrite !encryptCaesarCipher_map. apply map_string_app.
Qed.

(** ** The run of [main] *)

(** Once a key token is there, the run is determined by the first line
    and by what [num_get] stores for the token. *)
Lemma main_with_token key0 stdin token :
  key_token stdin = Some token ->
  main key0 stdin
  = mkOutcome
      (prompts ++ "Encrypted message: "
         ++ encryptCaesarCipher (message_of stdin)
              (stored_value (fst (scan_int token)))
         ++ endl)%string
      "" 0.
Proof.
  unfold key_token, message_of, main, getline, extract_int. simpl.
  destruct (split_line stdin) as [message [rest|]]; [|discriminate].
  simpl. destruct (skip_ws rest) as [|c token'] eqn:Hws; [discriminate|].
  intros Htoken. inversion Htoken; subst token.
  destruct (scan_int (String c token')) as [r rest']. reflexivity.
Qed.

(** C5 as stated does not hold: on a run whose key token is [abc], which
    [num_get] cannot read as an integer, nothing of what the error policy
    asks happens. *)
Lemma bad_key_is_not_reported :
  (exists token,
      key_token stdin_bad_key = Some token
      /\ scan_failed (fst (scan_int token)) = true)
  /\ err (main 0 stdin_bad_key) = ""
  /\ status (main 0 stdin_bad_key) = 0
  /\ index 0 "Encrypted message" (out (main 0 stdin_bad_key)) = Some 60%nat
  /\ ~ reports_input_error (main 0 stdin_bad_key).
Proof.
  split.
  { exists ("abc" ++ endl)%string. split; vm_compute; reflexivity. }
  split; [vm_compute; reflexivity|].
  split; [vm_compute; reflexivity|].
  split; [vm_compute; reflexivity|].
  intros (Herr & _). apply Herr. vm_compute. reflexivity.
Qed.

(** What [num_get] makes of a token, read off the integer the token
    starts with: nothing without a digit, the nearest bound for an
    integer outside the range of [int], the integer itself otherwise. *)
Lemma scan_int_leading_number token :
  fst (scan_int token)
  = match leading_number token with
    | None => NoNumber
    | Some v =>
        if v <? Int.min_int then OutOfRange Int.min_int
        else if Int.max_int <? v then OutOfRange Int.max_int
        else Number v
    end.
Proof.
  unfold scan_int, leading_number.
  destruct (match token with
            | String "-"%char rest => (true, rest)
            | String "+"%char rest => (false, rest)
            | _ => (false, token)
            end) as [negative digits].
  destruct (take_digits digits 0 0) as [[count magnitude] rest].
  destruct count as [|count]; [reflexivity|].
  set (v := if negative then - magnitude else magnitude).
  destruct (v <? Int.min_int); [reflexivity|].
  destruct (Int.max_int <? v); reflexivity.
Qed.

(** C5, amended: when the key token cannot be read as an [int], the
    program writes nothing to standard error, ends with status 0, and
    still prints the result line, transforming the message with the value
    the failed extraction stored in [key].  That value is 0 when the
    token does not start with a number, and the message is then printed
    as it was read; it is [INT_MAX] when the token starts with a number
    above [INT_MAX] and [INT_MIN] when it starts with a number below
    [INT_MIN]; a failed extraction has no other case. *)
Theorem bad_key_still_encrypts :
  forall (key0 : Z) (stdin token : string),
    key_token stdin = Some token ->
    scan_failed (fst (scan_int token)) = true ->
    err (main key0 stdin) = ""
    /\ status (main key0 stdin) = 0
    /\ out (main key0 stdin)
       = (prompts ++ "Encrypted message: "
            ++ encryptCaesarCipher (message_of stdin)
                 (stored_value (fst (scan_int token)))
            ++ endl)%string
    /\ (fst (scan_int token) = NoNumber ->
        out (main key0 stdin)
        = (prompts ++ "Encrypted message: " ++ message_of stdin ++ endl)%string)
    /\ match leading_number token with
       | None =>
           stored_value (fst (scan_int token)) = 0
           /\ out (main key0 stdin)
              = (prompts ++ "Encrypted message: "
                   ++ message_of stdin ++ endl)%string
       | Some v =>
           (Int.max_int < v
            /\ stored_value (fst (scan_int token)) = Int.max_int
            /\ out (main key0 stdin)
               = (prompts ++ "Encrypted message: "
                    ++ encryptCaesarCipher (message_of stdin) Int.max_int
                    ++ endl)%string)
           \/ (v < Int.min_int
               /\ stored_value (fst (scan_int token)) = Int.min_int
               /\ out (main key0 stdin)
                  = (prompts ++ "Encrypted message: "
                       ++ encryptCaesarCipher (message_of stdin) Int.min_int
                       ++ endl)%string)
       end.
Proof.
  intros key0 stdin token Htoken Hfailed.
  rewrite (main_with_token key0 stdin token Htoken). cbn [err status out].
  split; [reflexivity|]. split; [reflexivity|]. split; [reflexivity|].
  split.
  { intros Hno. rewrite Hno. simpl. now rewrite encrypt_key_zero. }
  rewrite scan_int_leading_number in *.
  destruct (leading_number token) as [v|].
  - destruct (Z.ltb_spec v Int.min_int) as [Hlow|Hlow].
    + right. simpl. split; [assumption|]. split; reflexivity.
    + destruct (Z.ltb_spec Int.max_int v) as [Hhigh|Hhigh].
      * left. simpl. split; [assumption|]. split; reflexivity.
      * discriminate Hfailed.
  - simpl. split; [reflexivity|]. now rewrite encrypt_key_zero.
Qed.

Lemma bad_key_still_encrypts_witness :
  (key_token stdin_bad_key = Some ("abc" ++ endl)%string
   /\ scan_failed (fst (scan_int ("abc" ++ endl))) = true
   /\ err (main 0 stdin_bad_key) = ""
   /\ status (main 0 stdin_bad_key) = 0
   /\ out (main 0 stdin_bad_key)
      = (prompts ++ "Encrypted message: " ++ "Hello" ++ endl)%string)
  /\ (key_token stdin_big_key = Some ("99999999999" ++ endl)%string
      /\ scan_failed (fst (scan_int ("99999999999" ++ endl))) = true
      /\ leading_number ("99999999999" ++ endl) = Some 99999999999
      /\ stored_value (fst (scan_int ("99999999999" ++ endl))) = 2147483647
      /\ out (main 0 stdin_big_key)
         = (prompts ++ "Encrypted message: "
              ++ encryptCaesarCipher "Hello" 2147483647 ++ endl)%string)
  /\ (key_token stdin_small_key = Some ("-99999999999" ++ endl)%string
      /\ scan_failed (fst (scan_int ("-99999999999" ++ endl))) = true
      /\ leading_number ("-99999999999" ++ endl) = Some (-99999999999)
      /\ stored_value (fst (scan_int ("-99999999999" ++ endl)))
         = -2147483648
      /\ out (main 0 stdin_small_key)
         = (prompts ++ "Encrypted message: "
              ++ encryptCaesarCipher "Hello" (-2147483648) ++ endl)%string).
Proof.
  split; [|split].
  - split; [reflexivity|]. split; [reflexivity|].
    destruct (bad_key_still_encrypts 0 stdin_bad_key ("abc" ++ endl)%string
                eq_refl eq_refl) as (Herr & Hstatus & _ & Hout & _).
    split; [exact Herr|]. split; [exact Hstatus|].
    apply Hout. reflexivity.
  - split; [reflexivity|]. split; [reflexivity|]. split; [reflexivity|].
    destruct (bad_key_still_encrypts 0 stdin_big_key
                ("99999999999" ++ endl)%string eq_refl eq_refl)
      as (_ & _ & _ & _ & Hcase).
    change (leading_number ("99999999999" ++ endl)) with (Some 99999999999)
      in Hcase.
    destruct Hcase as [(_ & Hstored & Hout)|(Hlow & _)].
    + split; [exact Hstored | exact Hout].
    + exfalso. revert Hlow. unfold Int.min_int. lia.
  - split; [reflexivity|]. split; [reflexivity|]. split; [reflexivity|].
    destruct (bad_key_still_encrypts 0 stdin_small_key
                ("-99999999999" ++ endl)%string eq_refl eq_refl)
      as (_ & _ & _ & _ & Hcase).
    change (leading_number ("-99999999999" ++ endl))
      with (Some (-99999999999)) in Hcase.
    destruct Hcase as [(Hhigh & _)|(_ & Hstored & Hout)].
    + exfalso. revert Hhigh. unfold Int.max_int. lia.
    + split; [exact Hstored | exact Hout].
Defined.

(** * Further properties of [encryptCaesarCipher] *)

(** ** One character, nonnegative key *)

Lemma sum_fits_bound c key :
  0 <= key <= Int.max_int - 25 -> sum_fits key c = true.
Proof.
  intros Hk. unfold sum_fits.
  destruct (isalpha (int_of_char c)) eqn:Hc; [|reflexivity].
  simpl. apply in_rangeb_spec. destruct (letter_offset c Hc) as [Hoff _].
  unfold Int.in_range, Int.min_int, Int.max_int in *. lia.
Qed.

Lemma encryptChar_non_letter c key :
  isalpha (int_of_char c) = false -> encryptChar c key = c.
Proof. intros Hc. unfold encryptChar. now rewrite Hc. Qed.

(** The image of a letter under a nonnegative key: a letter with the same
    [base], at the offset the modulo gives. *)
Lemma encryptChar_nonneg_image c key :
  isalpha (int_of_char c) = true ->
  0 <= key <= Int.max_int - 25 ->
  isalpha (int_of_char (encryptChar c key)) = true
  /\ base_of (encryptChar c key) = base_of c
  /\ int_of_char (encryptChar c key) - base_of c
     = (int_of_char c - base_of c + key) mod 26.
Proof.
  intros Hc Hk.
  rewrite encryptChar_nonneg by (try apply sum_fits_bound; lia).
  unfold spec_shift. rewrite Hc, normalized_mod_eq.
  pose proof (Z.mod_pos_bound (int_of_char c - base_of c + key) 26) as Hb.
  set (r := (int_of_char c - base_of c + key) mod 26) in *.
  destruct (letter_cases c Hc) as [(_ & _ & Hbase & _)|(_ & _ & Hbase & _)];
    rewrite Hbase; unfold base_of, isalpha, islower, isupper;
    rewrite !int_of_char_of_int by lia;
    change (int_of_char "a") with 97; change (int_of_char "A") with 65.
  - replace (97 <=? r + 97) with true by (symmetry; apply Z.leb_le; lia).
    replace (r + 97 <=? 122) with true by (symmetry; apply Z.leb_le; lia).
    simpl. rewrite orb_true_r. split; [reflexivity|]. split; [reflexivity|lia].
  - replace (97 <=? r + 65) with false by (symmetry; apply Z.leb_gt; lia).
    replace (65 <=? r + 65) with true by (symmetry; apply Z.leb_le; lia).
    replace (r + 65 <=? 90) with true by (symmetry; apply Z.leb_le; lia).
    simpl. split; [reflexivity|]. split; [reflexivity|lia].
Qed.

(** A letter is its [base] plus its offset, as a character. *)
Lemma letter_from_offset c :
  isalpha (int_of_char c) = true ->
  char_of_int (int_of_char c - base_of c + base_of c) = c.
Proof.
  intros _. replace (int_of_char c - base_of c + base_of c)
    with (int_of_char c) by lia.
  apply char_of_int_of_char.
Qed.

Lemma encryptChar_nonneg_letter c key :
  isalpha (int_of_char c) = true ->
  0 <= key <= Int.max_int - 25 ->
  encryptChar c key
  = char_of_int ((int_of_char c - base_of c + key) mod 26 + base_of c).
Proof.
  intros Hc Hk.
  rewrite encryptChar_nonneg by (try apply sum_fits_bound; lia).
  unfold spec_shift. now rewrite Hc, normalized_mod_eq.
Qed.

(** Shifting by [k1] and then by [k2] is shifting by [k1 + k2]. *)
Lemma encryptChar_compose c k1 k2 :
  0 <= k1 -> 0 <= k2 -> k1 + k2 <= Int.max_int - 25 ->
  encryptChar (encryptChar c k1) k2 = encryptChar c (k1 + k2).
Proof.
  intros H1 H2 H12.
  destruct (isalpha (int_of_char c)) eqn:Hc.
  - destruct (encryptChar_nonneg_image c k1 Hc) as (Ha & Hb & Ho); [lia|].
    rewrite (encryptChar_nonneg_letter (encryptChar c k1)) by (assumption || lia).
    rewrite (encryptChar_nonneg_letter c (k1 + k2)) by (assumption || lia).
    rewrite Hb, Ho. f_equal. f_equal.
    rewrite Z.add_mod_idemp_l by lia. f_equal. lia.
  - now rewrite !encryptChar_non_letter
      by (rewrite ?encryptChar_non_letter; assumption).
Qed.

(** Nonnegative keys that are congruent modulo 26 act alike. *)
Lemma encryptChar_congruent c k1 k2 :
  0 <= k1 <= Int.max_int - 25 -> 0 <= k2 <= Int.max_int - 25 ->
  k1 mod 26 = k2 mod 26 ->
  encryptChar c k1 = encryptChar c k2.
Proof.
  intros H1 H2 Hmod.
  destruct (isalpha (int_of_char c)) eqn:Hc.
  - rewrite !encryptChar_nonneg_letter by assumption.
    f_equal. f_equal.
    rewrite (Z.add_mod _ k1), (Z.add_mod _ k2), Hmod by lia. reflexivity.
  - now rewrite !encryptChar_non_letter.
Qed.

Lemma encryptChar_multiple_26 c key :
  0 <= key <= Int.max_int - 25 -> key mod 26 = 0 -> encryptChar c key = c.
Proof.
  intros Hk Hmod.
  rewrite (encryptChar_congruent c key 0);
    [apply encryptChar_zero | lia | unfold Int.max_int; lia | now rewrite Hmod].
Qed.

(** The key that undoes [key]: what is missing to the next multiple
    of 26. *)
Lemma encryptChar_round_trip c key :
  0 <= key <= Int.max_int - 51 ->
  encryptChar (encryptChar c key) (26 - key mod 26) = c.
Proof.
  intros Hk. pose proof (Z.mod_pos_bound key 26) as Hb.
  rewrite encryptChar_compose by lia.
  apply encryptChar_multiple_26; [lia|].
  rewrite Z.add_sub_assoc, Zminus_mod, Zplus_mod, Z_mod_same_full.
  rewrite Z.add_0_r, !Z.mod_mod, Z.sub_diag by lia. reflexivity.
Qed.

Lemma encryptChar_injective c d key :
  0 <= key <= Int.max_int - 51 ->
  encryptChar c key = encryptChar d key -> c = d.
Proof.
  intros Hk Heq.
  rewrite <- (encryptChar_round_trip c key Hk).
  rewrite <- (encryptChar_round_trip d key Hk).
  now rewrite Heq.
Qed.

(** ** One character, negative key *)

(** A negative key above -26 is added to the code of the letter as it is:
    the remainder of a sum between -26 and 26 is the sum itself. *)
Lemma encryptChar_small_negative c key :
  isalpha (int_of_char c) = true ->
  -26 < key < 0 ->
  encryptChar c key = char_of_int (int_of_char c + key).
Proof.
  intros Hc Hk. destruct (letter_offset c Hc) as [Hoff Hsub].
  unfold encryptChar, shifted_index. rewrite Hc, Hsub. cbv zeta.
  assert (Hbase : base_of c = 97 \/ base_of c = 65)
    by (destruct (letter_cases c Hc) as [(_ & _ & Hb & _)|(_ & _ & Hb & _)];
        auto).
  assert (Hsum : Int.add (int_of_char c - base_of c) key
                 = int_of_char c - base_of c + key)
    by (apply wrap_in_range;
        unfold Int.in_range, Int.min_int, Int.max_int; lia).
  assert (Hrem : Int.rem (int_of_char c - base_of c + key) 26
                 = int_of_char c - base_of c + key).
  { unfold Int.rem. rewrite (proj2 (Z.rem_small_iff _ 26 ltac:(lia))) by lia.
    apply wrap_in_range. unfold Int.in_range, Int.min_int, Int.max_int. lia. }
  rewrite Hsum, Hrem. f_equal.
  unfold Int.add. rewrite wrap_in_range
    by (unfold Int.in_range, Int.min_int, Int.max_int; lia).
  lia.
Qed.

Lemma same_case_small_negative c key :
  isalpha (int_of_char c) = true ->
  -26 < key < 0 ->
  same_case c (char_of_int (int_of_char c + key))
  = (0 <=? int_of_char c - base_of c + key).
Proof.
  intros Hc Hk. unfold same_case.
  destruct (letter_cases c Hc) as [(Hl & Hu & Hb & Hr)|(Hl & Hu & Hb & Hr)];
    rewrite Hl, Hu, Hb, int_of_char_of_int by lia; simpl;
    rewrite ?orb_false_r; unfold islower, isupper.
  - replace (int_of_char c + key <=? 122) with true
      by (symmetry; apply Z.leb_le; lia).
    rewrite andb_true_r.
    destruct (Z.leb_spec 97 (int_of_char c + key)),
      (Z.leb_spec 0 (int_of_char c - 97 + key)); (reflexivity || lia).
  - replace (int_of_char c + key <=? 90) with true
      by (symmetry; apply Z.leb_le; lia).
    rewrite andb_true_r.
    destruct (Z.leb_spec 65 (int_of_char c + key)),
      (Z.leb_spec 0 (int_of_char c - 65 + key)); (reflexivity || lia).
Qed.

(** ** Whole messages *)

Lemma map_string_map f g s :
  map_string f (map_string g s) = map_string (fun c => f (g c)) s.
Proof. induction s as [|c s IH]; simpl; [reflexivity | now rewrite IH]. Qed.

Lemma map_string_injective f s : forall t,
  (forall c d, f c = f d -> c = d) ->
  map_string f s = map_string f t -> s = t.
Proof.
  induction s as [|c s IH]; intros [|d t] Hf Heq; simpl in Heq;
    try discriminate; [reflexivity|].
  inversion Heq as [[Hcd Hst]]. f_equal; [now apply Hf | now apply IH].
Qed.

Lemma get_encrypt message key i c :
  get i message = Some c ->
  get i (encryptCaesarCipher message key) = Some (encryptChar c key).
Proof.
  intros Hi. now rewrite encryptCaesarCipher_map, get_map_string, Hi.
Qed.

(** X1: a nonnegative key that is a multiple of 26 (0, 26, 52, ...), as
    long as adding 25 to it does not overflow an [int], leaves every
    message as it is. *)
Theorem key_multiple_of_26_is_identity :
  forall (message : string) (key : Z),
    0 <= key <= Int.max_int - 25 ->
    key mod 26 = 0 ->
    encryptCaesarCipher message key = message.
Proof.
  intros message key Hk Hmod. rewrite encryptCaesarCipher_map.
  apply map_string_id. intros c. now apply encryptChar_multiple_26.
Qed.

Lemma key_multiple_of_26_is_identity_witness :
  0 <= 52 <= Int.max_int - 25
  /\ 52 mod 26 = 0
  /\ encryptCaesarCipher "Test, 1 2 3!" 52 = "Test, 1 2 3!".
Proof.
  split; [unfold Int.max_int; lia|]. split; [reflexivity|].
  apply (key_multiple_of_26_is_identity "Test, 1 2 3!" 52);
    [unfold Int.max_int; lia | reflexivity].
Defined.

(** X2: with a nonnegative key (at most [INT_MAX - 25]) a letter at
    position [i] is sent to a letter of the same case at position [i],
    whose offset from the start of its alphabet is the old offset plus
    the key, modulo 26. *)
Theorem nonneg_key_preserves_case :
  forall (message : string) (key : Z) (i : nat) (c : ascii),
    0 <= key <= Int.max_int - 25 ->
    get i message = Some c ->
    isalpha (int_of_char c) = true ->
    exists d,
      get i (encryptCaesarCipher message key) = Some d
      /\ same_case c d = true
      /\ int_of_char d - base_of c = (int_of_char c - base_of c + key) mod 26.
Proof.
  intros message key i c Hk Hi Hc. exists (encryptChar c key).
  split; [now apply get_encrypt|]. split.
  - apply encryptChar_nonneg_same_case; [assumption | lia |].
    now apply sum_fits_bound.
  - now apply encryptChar_nonneg_image.
Qed.

Lemma nonneg_key_preserves_case_witness :
  exists d,
    get 4 (encryptCaesarCipher "abcXYZ" 3) = Some d
    /\ same_case "Y" d = true
    /\ int_of_char d - base_of "Y" = (int_of_char "Y" - base_of "Y" + 3) mod 26.
Proof.
  apply (nonneg_key_preserves_case "abcXYZ" 3 4 "Y"%char);
    [unfold Int.max_int; lia | reflexivity | reflexivity].
Defined.

(** X3: two nonnegative keys (each at most [INT_MAX - 25]) with the same
    remainder modulo 26 give the same output on every message. *)
Theorem congruent_nonneg_keys_agree :
  forall (message : string) (k1 k2 : Z),
    0 <= k1 <= Int.max_int - 25 ->
    0 <= k2 <= Int.max_int - 25 ->
    k1 mod 26 = k2 mod 26 ->
    encryptCaesarCipher message k1 = encryptCaesarCipher message k2.
Proof.
  intros message k1 k2 H1 H2 Hmod. rewrite !encryptCaesarCipher_map.
  apply map_string_ext. intros i c _. now apply encryptChar_congruent.
Qed.

Lemma congruent_nonneg_keys_agree_witness :
  0 <= 3 <= Int.max_int - 25
  /\ 0 <= 81 <= Int.max_int - 25
  /\ 3 mod 26 = 81 mod 26
  /\ encryptCaesarCipher "Hello, World!" 3
     = encryptCaesarCipher "Hello, World!" 81.
Proof.
  split; [unfold Int.max_int; lia|]. split; [unfold Int.max_int; lia|].
  split; [reflexivity|].
  apply (congruent_nonneg_keys_agree "Hello, World!" 3 81);
    [unfold Int.max_int; lia | unfold Int.max_int; lia | reflexivity].
Defined.

(** X4: encrypting with a nonnegative key [k1] and then with a
    nonnegative key [k2] is encrypting once with [k1 + k2], when
    [k1 + k2] is at most [INT_MAX - 25]. *)
Theorem nonneg_keys_compose :
  forall (message : string) (k1 k2 : Z),
    0 <= k1 -> 0 <= k2 -> k1 + k2 <= Int.max_int - 25 ->
    encryptCaesarCipher (encryptCaesarCipher message k1) k2
    = encryptCaesarCipher message (k1 + k2).
Proof.
  intros message k1 k2 H1 H2 H12.
  rewrite !encryptCaesarCipher_map, map_string_map.
  apply map_string_ext. intros i c _. now apply encryptChar_compose.
Qed.

Lemma nonneg_keys_compose_witness :
  0 <= 20 /\ 0 <= 19 /\ 20 + 19 <= Int.max_int - 25
  /\ encryptCaesarCipher (encryptCaesarCipher "Hello, World!" 20) 19
     = encryptCaesarCipher "Hello, World!" (20 + 19).
Proof.
  split; [lia|]. split; [lia|]. split; [unfold Int.max_int; lia|].
  apply (nonneg_keys_compose "Hello, World!" 20 19);
    [lia | lia | unfold Int.max_int; lia].
Defined.

(** X5: a message encrypted with a nonnegative key [key] (at most
    [INT_MAX - 51]) is recovered by encrypting the result with the key
    [26 - key mod 26]. *)
Theorem complementary_key_decrypts :
  forall (message : string) (key : Z),
    0 <= key <= Int.max_int - 51 ->
    encryptCaesarCipher (encryptCaesarCipher message key) (26 - key mod 26)
    = message.
Proof.
  intros message key Hk.
  rewrite !encryptCaesarCipher_map, map_string_map.
  apply map_string_id. intros c. now apply encryptChar_round_trip.
Qed.

Lemma complementary_key_decrypts_witness :
  0 <= 29 <= Int.max_int - 51
  /\ encryptCaesarCipher (encryptCaesarCipher "Hello, World!" 29)
       (26 - 29 mod 26)
     = "Hello, World!".
Proof.
  split; [unfold Int.max_int; lia|].
  apply (complementary_key_decrypts "Hello, World!" 29).
  unfold Int.max_int; lia.
Defined.

(** X6: with a nonnegative key (at most [INT_MAX - 51]) two different
    messages never have the same encryption. *)
Theorem nonneg_key_injective :
  forall (m1 m2 : string) (key : Z),
    0 <= key <= Int.max_int - 51 ->
    encryptCaesarCipher m1 key = encryptCaesarCipher m2 key ->
    m1 = m2.
Proof.
  intros m1 m2 key Hk. rewrite !encryptCaesarCipher_map.
  apply map_string_injective. intros c d. now apply encryptChar_injective.
Qed.

Lemma nonneg_key_injective_witness :
  0 <= 3 <= Int.max_int - 51
  /\ encryptCaesarCipher "abc" 3 = encryptCaesarCipher "abc" 3
  /\ "abc" = "abc".
Proof.
  split; [unfold Int.max_int; lia|]. split; [reflexivity|].
  apply (nonneg_key_injective "abc" "abc" 3);
    [unfold Int.max_int; lia | reflexivity].
Defined.

(** X7: with a key strictly between -26 and 0 the code of a letter at
    position [i] is just increased by the key, with no wrap-around: the
    output character is a letter of the same case exactly when
    [c - base + key] is not negative. *)
Theorem small_negative_key_adds_code :
  forall (message : string) (key : Z) (i : nat) (c : ascii),
    -26 < key < 0 ->
    get i message = Some c ->
    isalpha (int_of_char c) = true ->
    get i (encryptCaesarCipher message key)
    = Some (char_of_int (int_of_char c + key))
    /\ same_case c (char_of_int (int_of_char c + key))
       = (0 <=? int_of_char c - base_of c + key).
Proof.
  intros message key i c Hk Hi Hc. split.
  - rewrite (get_encrypt message key i c Hi).
    now rewrite encryptChar_small_negative.
  - now apply same_case_small_negative.
Qed.

Lemma small_negative_key_adds_code_witness :
  -26 < -3 < 0
  /\ get 1 "Cab" = Some "a"%char
  /\ get 1 (encryptCaesarCipher "Cab" (-3)) = Some "^"%char
  /\ same_case "a" "^" = false.
Proof.
  split; [lia|]. split; [reflexivity|].
  exact (small_negative_key_adds_code "Cab" (-3) 1 "a"%char
           ltac:(lia) eq_refl eq_refl).
Defined.

(** X8: for any negative [int] key, a letter at position [i] whose sum
    [c - base + key] is negative and not a multiple of 26 is emitted as a
    character that is not a letter of its own case. *)
Theorem negative_sum_loses_case :
  forall (message : string) (key : Z) (i : nat) (c : ascii),
    Int.min_int <= key ->
    get i message = Some c ->
    isalpha (int_of_char c) = true ->
    int_of_char c - base_of c + key < 0 ->
    Z.rem (int_of_char c - base_of c + key) 26 <> 0 ->
    exists d,
      get i (encryptCaesarCipher message key) = Some d
      /\ same_case c d = false.
Proof.
  intros message key i c Hk Hi Hc Hneg Hrem. exists (encryptChar c key).
  split; [now apply get_encrypt|].
  now apply encryptChar_negative_not_same_case.
Qed.

Lemma negative_sum_loses_case_witness :
  exists d,
    get 0 (encryptCaesarCipher "hi" (-100)) = Some d
    /\ same_case "h" d = false.
Proof.
  apply (negative_sum_loses_case "hi" (-100) 0 "h"%char);
    [unfold Int.min_int; lia | reflexivity | reflexivity
    | vm_compute; reflexivity | vm_compute; discriminate].
Defined.

(** * Further properties of [main] *)

(** ** Reading the message *)

Lemma length_append (s t : string) :
  String.length (s ++ t) = (String.length s + String.length t)%nat.
Proof. induction s as [|c s IH]; simpl; [reflexivity | now rewrite IH]. Qed.

Lemma split_line_no_newline s :
  no_newline s = true -> split_line s = (s, None).
Proof.
  unfold no_newline. induction s as [|c s IH]; simpl; intros H.
  - reflexivity.
  - apply andb_true_iff in H. destruct H as [Hc Hs].
    apply negb_true_iff in Hc. rewrite Hc, (IH Hs). reflexivity.
Qed.

Lemma split_line_first_line s rest :
  no_newline s = true -> split_line (s ++ endl ++ rest) = (s, Some rest).
Proof.
  unfold no_newline. induction s as [|c s IH]; intros H.
  - reflexivity.
  - cbn [all_chars] in H. apply andb_true_iff in H. destruct H as [Hc Hs].
    apply negb_true_iff in Hc. cbn [append split_line].
    rewrite Hc, (IH Hs). reflexivity.
Qed.

(** ** Skipping white space *)

Lemma skip_ws_all_space ws : all_chars isspace ws = true -> skip_ws ws = "".
Proof.
  induction ws as [|c ws IH]; simpl; intros H.
  - reflexivity.
  - apply andb_true_iff in H. destruct H as [Hc Hs]. now rewrite Hc, IH.
Qed.

Lemma skip_ws_prefix ws c s :
  all_chars isspace ws = true -> isspace c = false ->
  skip_ws (ws ++ String c s) = String c s.
Proof.
  induction ws as [|d ws IH]; simpl; intros H Hc.
  - now rewrite Hc.
  - apply andb_true_iff in H. destruct H as [Hd Hs]. rewrite Hd. now apply IH.
Qed.

(** ** Scanning a numeral *)

Ltac eval_digit :=
  match goal with
  | |- context [isdigit ?c] =>
      let b := eval vm_compute in (isdigit c) in
      change (isdigit c) with b;
      let v := eval vm_compute in (digit_value c) in
      change (digit_value c) with v
  end.

Lemma take_digits_stop rest count acc :
  starts_with_digit rest = false ->
  take_digits rest count acc = (count, acc, rest).
Proof. destruct rest as [|c s]; simpl; intros H; [|rewrite H]; reflexivity. Qed.

Lemma take_digits_uint_acc d rest : forall count p,
  starts_with_digit rest = false ->
  take_digits (DecimalString.NilEmpty.string_of_uint d ++ rest) count (Z.pos p)
  = ((count + Decimal.nb_digits d)%nat, Z.pos (Pos.of_uint_acc d p), rest).
Proof.
  induction d as [|d IH|d IH|d IH|d IH|d IH|d IH|d IH|d IH|d IH|d IH];
    intros count p Hrest;
    cbn [DecimalString.NilEmpty.string_of_uint append Decimal.nb_digits
           Pos.of_uint_acc take_digits].
  1: { rewrite Nat.add_0_r. now apply take_digits_stop. }
  all: eval_digit; cbv iota; rewrite Nat.add_succ_r;
    change (S (count + Decimal.nb_digits d))
      with (S count + Decimal.nb_digits d)%nat;
    rewrite <- (IH (S count) _ Hrest); f_equal; lia.
Qed.

Lemma take_digits_uint d rest : forall count,
  starts_with_digit rest = false ->
  take_digits (DecimalString.NilEmpty.string_of_uint d ++ rest) count 0
  = ((count + Decimal.nb_digits d)%nat, Z.of_N (Pos.of_uint d), rest).
Proof.
  induction d as [|d IH|d IH|d IH|d IH|d IH|d IH|d IH|d IH|d IH|d IH];
    intros count Hrest;
    cbn [DecimalString.NilEmpty.string_of_uint append Decimal.nb_digits
           Pos.of_uint take_digits].
  1: { rewrite Nat.add_0_r. now apply take_digits_stop. }
  1: { eval_digit. cbv iota. change (10 * 0 + 0) with 0.
       rewrite IH by assumption. now rewrite Nat.add_succ_r. }
  all: eval_digit; cbv iota; rewrite Nat.add_succ_r;
    match goal with
    | |- take_digits _ _ ?a = _ =>
        let v := eval vm_compute in a in change a with v
    end;
    now rewrite take_digits_uint_acc.
Qed.

Lemma nb_digits_nonnil d :
  d <> Decimal.Nil -> exists n, Decimal.nb_digits d = S n.
Proof. destruct d; intros H; try contradiction; simpl; eauto. Qed.

(** A numeral without sign is scanned from its first digit on. *)
Lemma scan_int_unsigned c s :
  isdigit c = true ->
  scan_int (String c s)
  = let '(count, magnitude, rest) := take_digits (String c s) 0%nat 0 in
    match count with
    | O => (NoNumber, rest)
    | S _ =>
        if magnitude <? Int.min_int then (OutOfRange Int.min_int, rest)
        else if Int.max_int <? magnitude then (OutOfRange Int.max_int, rest)
        else (Number magnitude, rest)
    end.
Proof.
  destruct c as [[] [] [] [] [] [] [] []]; intros H;
    try discriminate H; reflexivity.
Qed.

Lemma string_of_uint_head d :
  d <> Decimal.Nil ->
  exists c s, DecimalString.NilEmpty.string_of_uint d = String c s
              /\ isdigit c = true /\ isspace c = false.
Proof.
  destruct d; intros H; try contradiction; simpl;
    eexists; eexists; (split; [reflexivity | split; reflexivity]).
Qed.

(** Scanning the numeral of an [int] gives that [int] back and stops at
    the first character after it. *)
Lemma scan_int_decimal k rest :
  Int.in_range k -> starts_with_digit rest = false ->
  scan_int (decimal k ++ rest) = (Number k, rest).
Proof.
  intros Hk Hrest. unfold Int.in_range in Hk. unfold decimal.
  destruct k as [|p|p]; cbn [Z.to_int DecimalString.NilEmpty.string_of_int].
  - change (DecimalString.NilEmpty.string_of_uint Decimal.zero ++ rest)%string
      with (String "0" rest).
    rewrite scan_int_unsigned by reflexivity.
    cbn [take_digits]. eval_digit. cbv iota.
    rewrite take_digits_stop by assumption. reflexivity.
  - pose proof (DecimalPos.Unsigned.to_uint_nonnil p) as Hnil.
    destruct (string_of_uint_head _ Hnil) as (c & s & Hs & Hd & _).
    destruct (nb_digits_nonnil _ Hnil) as [n Hn].
    pose proof (take_digits_uint (Pos.to_uint p) rest 0 Hrest) as Ht.
    rewrite DecimalPos.Unsigned.of_to in Ht. rewrite Hn in Ht.
    rewrite Hs in *. cbn [append] in *.
    rewrite scan_int_unsigned by assumption. rewrite Ht. cbn [Nat.add].
    change (Z.of_N (N.pos p)) with (Z.pos p).
    destruct (Z.ltb_spec (Z.pos p) Int.min_int); [lia|].
    destruct (Z.ltb_spec Int.max_int (Z.pos p)); [lia|]. reflexivity.
  - pose proof (DecimalPos.Unsigned.to_uint_nonnil p) as Hnil.
    destruct (nb_digits_nonnil _ Hnil) as [n Hn].
    pose proof (take_digits_uint (Pos.to_uint p) rest 0 Hrest) as Ht.
    rewrite DecimalPos.Unsigned.of_to in Ht. rewrite Hn in Ht.
    cbn [append]. unfold scan_int. rewrite Ht. cbn [Nat.add].
    change (- Z.of_N (N.pos p)) with (Z.neg p).
    destruct (Z.ltb_spec (Z.neg p) Int.min_int); [lia|].
    destruct (Z.ltb_spec Int.max_int (Z.neg p)); [lia|]. reflexivity.
Qed.

Lemma decimal_head k :
  exists c s, decimal k = String c s /\ isspace c = false.
Proof.
  unfold decimal. destruct k as [|p|p];
    cbn [Z.to_int DecimalString.NilEmpty.string_of_int].
  - exists "0"%char, ""%string. split; reflexivity.
  - destruct (string_of_uint_head _ (DecimalPos.Unsigned.to_uint_nonnil p))
      as (c & s & Hs & _ & Hsp). eauto.
  - eexists; eexists. split; reflexivity.
Qed.

(** Whatever the token, what [num_get] stores is an [int]. *)
Lemma stored_value_in_range token :
  Int.in_range (stored_value (fst (scan_int token))).
Proof.
  unfold scan_int.
  destruct (match token with
            | String "-"%char rest => (true, rest)
            | String "+"%char rest => (false, rest)
            | _ => (false, token)
            end) as [negative s1].
  destruct (take_digits s1 0 0) as [[count magnitude] rest].
  destruct count as [|count]; [simpl; unfold Int.in_range, Int.min_int, Int.max_int; lia|].
  set (v := if negative then - magnitude else magnitude).
  destruct (Z.ltb_spec v Int.min_int);
    [simpl; unfold Int.in_range, Int.min_int, Int.max_int; lia|].
  destruct (Z.ltb_spec Int.max_int v);
    [simpl; unfold Int.in_range, Int.min_int, Int.max_int; lia|].
  simpl. unfold Int.in_range. lia.
Qed.

(** ** Runs of [main] *)

Lemma main_without_token key0 stdin :
  key_token stdin = None ->
  main key0 stdin = run_result (message_of stdin) key0.
Proof.
  unfold key_token, message_of, main, run_result, getline, extract_int. simpl.
  destruct (split_line stdin) as [message [rest|]]; simpl.
  - destruct (skip_ws rest) as [|c token'] eqn:Hws; [|discriminate].
    reflexivity.
  - reflexivity.
Qed.

Lemma length_run_result message key :
  String.length (out (run_result message key))
  = (80 + String.length message)%nat.
Proof.
  unfold run_result, prompts. cbn [out].
  rewrite !length_append, encryptCaesarCipher_map, length_map_string.
  simpl. lia.
Qed.

(** X9: on every input, whether or not a key could be read, [main]
    writes nothing to standard error, ends with status 0 and prints, after
    the two prompts, one result line: the first line of the input
    encrypted with some [int] key.  The output is always 80 characters
    longer than the first line of the input. *)
Theorem main_always_prints_one_result_line :
  forall (key0 : Z) (stdin : string),
    Int.in_range key0 ->
    exists key,
      Int.in_range key
      /\ main key0 stdin = run_result (message_of stdin) key
      /\ String.length (out (main key0 stdin))
         = (80 + String.length (message_of stdin))%nat.
Proof.
  intros key0 stdin Hk0.
  destruct (key_token stdin) as [token|] eqn:Htoken.
  - exists (stored_value (fst (scan_int token))).
    split; [apply stored_value_in_range|].
    rewrite (main_with_token key0 stdin token Htoken).
    split; [reflexivity | apply length_run_result].
  - exists key0. split; [assumption|].
    rewrite (main_without_token key0 stdin Htoken).
    split; [reflexivity | apply length_run_result].
Qed.

Lemma main_always_prints_one_result_line_witness :
  Int.in_range 7
  /\ exists key,
      Int.in_range key
      /\ main 7 stdin_bad_key = run_result (message_of stdin_bad_key) key
      /\ String.length (out (main 7 stdin_bad_key))
         = (80 + String.length (message_of stdin_bad_key))%nat.
Proof.
  split; [unfold Int.in_range, Int.min_int, Int.max_int; lia|].
  apply (main_always_prints_one_result_line 7 stdin_bad_key).
  unfold Int.in_range, Int.min_int, Int.max_int; lia.
Defined.

(** X10: when the input is a message without newline, a newline, any
    white space, the decimal numeral of an [int] [k], and then anything
    that does not start with a digit, [main] prints the two prompts and
    the message encrypted with [k], writes nothing to standard error and
    ends with status 0. *)
Theorem main_encrypts_first_line_with_typed_key :
  forall (key0 : Z) (message ws : string) (k : Z) (rest : string),
    no_newline message = true ->
    all_chars isspace ws = true ->
    Int.in_range k ->
    starts_with_digit rest = false ->
    main key0 (message ++ endl ++ ws ++ decimal k ++ rest)
    = run_result message k.
Proof.
  intros key0 message ws k rest Hmsg Hws Hk Hrest.
  destruct (decimal_head k) as (c & s & Hdec & Hc).
  assert (Htoken : key_token (message ++ endl ++ ws ++ decimal k ++ rest)
                   = Some (decimal k ++ rest)%string).
  { unfold key_token. rewrite split_line_first_line by assumption.
    rewrite Hdec. cbn [append]. now rewrite skip_ws_prefix. }
  rewrite (main_with_token _ _ _ Htoken).
  rewrite scan_int_decimal by assumption.
  unfold message_of. rewrite split_line_first_line by assumption.
  reflexivity.
Qed.

Lemma main_encrypts_first_line_with_typed_key_witness :
  no_newline "Hello, World!" = true
  /\ all_chars isspace " " = true
  /\ Int.in_range 3
  /\ starts_with_digit endl = false
  /\ main 0 ("Hello, World!" ++ endl ++ " " ++ decimal 3 ++ endl)
     = run_result "Hello, World!" 3.
Proof.
  split; [reflexivity|]. split; [reflexivity|].
  split; [unfold Int.in_range, Int.min_int, Int.max_int; lia|].
  split; [reflexivity|].
  apply (main_encrypts_first_line_with_typed_key 0 "Hello, World!" " " 3 endl);
    [reflexivity | reflexivity
    | unfold Int.in_range, Int.min_int, Int.max_int; lia | reflexivity].
Defined.

(** X11: when the input ends with the message, or when only white space
    follows the newline after it, no key is extracted: [main] still
    prints a result line, the message encrypted with whatever value the
    uninitialised variable [key] holds. *)
Theorem main_without_key_uses_uninitialised_key :
  forall (key0 : Z) (message ws : string),
    no_newline message = true ->
    all_chars isspace ws = true ->
    main key0 message = run_result message key0
    /\ main key0 (message ++ endl ++ ws) = run_result message key0.
Proof.
  intros key0 message ws Hmsg Hws. split.
  - rewrite main_without_token.
    + unfold message_of. now rewrite split_line_no_newline.
    + unfold key_token. now rewrite split_line_no_newline.
  - rewrite main_without_token.
    + unfold message_of. now rewrite split_line_first_line.
    + unfold key_token. rewrite split_line_first_line by assumption.
      now rewrite skip_ws_all_space.
Qed.

Lemma main_without_key_uses_uninitialised_key_witness :
  no_newline "Hello" = true
  /\ all_chars isspace endl = true
  /\ main 3 "Hello" = run_result "Hello" 3
  /\ main 3 ("Hello" ++ endl ++ endl) = run_result "Hello" 3.
Proof.
  split; [reflexivity|]. split; [reflexivity|].
  apply (main_without_key_uses_uninitialised_key 3 "Hello" endl);
    reflexivity.
Defined.
